(** * Grover search driver (Cirq/CirqOracles/Grover/grover.py)

    A shallow embedding of [grover_iteration], [grover_search] and
    [run_grover_search], and the properties of their circuit construction,
    iteration count and answer decoding. *)

From Stdlib Require Import ZArith Reals Lra Lia List.
From Stdlib Require Import Ascii String DecimalString DecimalNat.
From stdpp Require Import base list.

Local Open Scope Z_scope.

(** ** Python arithmetic used by the iteration count

    [round(2 ** (len(qubits) / 2))]: true division of two ints gives a
    float, [**] of an int and a float converts the int and gives a float, and
    [round] of a float gives the nearest int, ties going to the even one.
    A float is an IEEE 754 binary64 number, taken here as the real number it
    denotes; every operation returns the exact result rounded to the nearest
    binary64 number, ties going to the even significand, and raises
    [OverflowError] when that is beyond the largest finite one.  For [**]
    this takes the C library's [pow] to round correctly.  Numbers below the
    normal range (under 2^-1022) do not arise here and are not modelled. *)

Module PyNum.

(** [round(x)] for one argument: nearest integer, ties to even. *)
Definition py_round (x : R) : Z :=
  let f := Int_part x in
  let d := (x - IZR f)%R in
  if Rlt_dec d (1 / 2) then f
  else if Rlt_dec (1 / 2) d then f + 1
  else if Z.even f then f else f + 1.

(** The real number 2^z *)
Definition pow2 (z : Z) : R := Rpower 2 (IZR z).

(** The binary exponent of a positive real [x]: 2^e <= x < 2^(e+1) *)
Definition ilog2 (x : R) : Z := Int_part (ln x / ln 2).

(** The binary64 number nearest to a non-negative real: 53 significant
    bits, ties to the even significand. *)
Definition round_binary64 (x : R) : R :=
  if Rle_dec x 0 then 0%R
  else let e := ilog2 x in
       (IZR (py_round (x * pow2 (52 - e))) * pow2 (e - 52))%R.

(** A rounded result of 2^1024 or more is not a finite binary64 number:
    [None] stands for the [OverflowError] that Python raises. *)
Definition finite_or_overflow (x : R) : option R :=
  if Rle_dec (pow2 1024) x then None else Some x.

(** [a / b] for two ints *)
Definition py_truediv (a b : Z) : option R :=
  finite_or_overflow (round_binary64 (IZR a / IZR b)).

(** [x ** y] for a positive [x] and a float [y] *)
Definition py_pow (x y : R) : option R :=
  finite_or_overflow (round_binary64 (Rpower x y)).

(** [2 ** (n / 2)] for a list length [n] *)
Definition pow2_half (n : nat) : option R :=
  match py_truediv (Z.of_nat n) 2 with
  | Some half => py_pow 2 half
  | None => None
  end.

(** The count as the spec writes it, round(2^(N/2)): the integer nearest to
    the real number 2^(N/2). *)
Definition nearest_pow2_half (n : nat) : Z := py_round (Rpower 2 (INR n / 2)).

(** The same on integers: the nearest integer to the square root of
    [2 ^ n], computed with the integer square root of [4 * 2 ^ n]. *)
Definition round_sqrt_pow2 (n : nat) : Z :=
  (Z.sqrt (2 ^ (Z.of_nat n + 2)) + 1) / 2.

(** The significand of the binary64 number nearest to the square root of 2 *)
Definition sqrt2_significand : Z := 6369051672525773.

(** [a / d] rounded to the nearest integer, ties to even, on integers *)
Definition round_half_even_div (a d : Z) : Z :=
  let q := a / d in
  let r := a mod d in
  if 2 * r <? d then q
  else if d <? 2 * r then q + 1
  else if Z.even q then q else q + 1.

(** What line 75 evaluates to, computed on integers *)
Definition round_pow2_half_closed (n : nat) : option Z :=
  if (n <? 2048)%nat then
    let k := Z.of_nat (n / 2) in
    if Nat.even n then Some (2 ^ k)
    else if 52 <=? k then Some (sqrt2_significand * 2 ^ (k - 52))
    else Some (round_half_even_div sqrt2_significand (2 ^ (52 - k)))
  else None.

End PyNum.

(** Line 75, [round(2 ** (len(qubits) / 2))]; [None] when it raises
    [OverflowError]. *)
Definition round_pow2_half (n : nat) : option Z :=
  option_map PyNum.py_round (PyNum.pow2_half n).

(** How many times the loop of lines 76-77 runs for a register of size [n]:
    the value that line 75 gives to [iterations], and not at all when line 75
    raises, the exception leaving [grover_search] before the loop. *)
Definition iterations (n : nat) : Z :=
  match round_pow2_half n with
  | Some count => count
  | None => 0
  end.


(** ** Circuits, registers and the collaborators

    A qubit is a [cirq.NamedQubit]; a circuit is the ordered sequence of the
    operations appended to it.  The operations a caller's marking oracle
    appends are kept as one block [oracle_call o qs target args], standing for
    the call [oracle(circuit, qubits, target, oracle_args)]. *)

Inductive Qid : Type := NamedQubit (name : string).

Definition qubit_name (q : Qid) : string := let 'NamedQubit s := q in s.

#[global] Instance Qid_eq_dec : EqDecision Qid.
Proof. intros [a] [b]. destruct (string_dec a b); [left | right]; congruence. Defined.

Inductive Op (Oracle OracleArgs : Type) : Type :=
| cirq_H (q : Qid)
| cirq_X (q : Qid)
| cirq_measure (q : Qid) (key : string)
| oracle_call (o : Oracle) (qs : list Qid) (target : Qid) (args : OracleArgs).

Arguments cirq_H {Oracle OracleArgs} q.
Arguments cirq_X {Oracle OracleArgs} q.
Arguments cirq_measure {Oracle OracleArgs} q key.
Arguments oracle_call {Oracle OracleArgs} o qs target args.

(** The objects that the three functions share by reference: the circuit
    under construction, the register, and the executions requested from the
    simulator so far (circuit submitted, repetitions). *)
Record World (Oracle OracleArgs : Type) : Type := mkWorld {
  circuit : list (Op Oracle OracleArgs);
  qubits : list Qid;
  runs : list (list (Op Oracle OracleArgs) * nat)
}.

Arguments mkWorld {Oracle OracleArgs} circuit qubits runs.
Arguments circuit {Oracle OracleArgs} w.
Arguments qubits {Oracle OracleArgs} w.
Arguments runs {Oracle OracleArgs} w.

(** What [Result.histogram(key=...)] gives back: the outcomes with their
    counts, in the order in which [items()] enumerates them. *)
Definition Histogram : Type := list (Z * nat).

(** The code that [grover.py] imports: [utility], [oracles] and [cirq]'s
    simulator. *)
Class Collaborators (Oracle OracleArgs : Type) : Type := {
  (** [utility.run_flip_marker_as_phase_marker(circuit, oracle, qubits, oracle_args)] *)
  run_flip_marker_as_phase_marker :
    World Oracle OracleArgs -> Oracle -> OracleArgs -> World Oracle OracleArgs;
  (** [oracles.check_if_all_zeros] *)
  check_if_all_zeros : Oracle;
  (** Python's [None], as an oracle argument *)
  PyNone : OracleArgs;
  (** [cirq.Simulator().run(circuit, repetitions=n)], read through
      [result.histogram(key=k)] *)
  Result : Type;
  simulator_run : list (Op Oracle OracleArgs) -> nat -> Result;
  histogram : Result -> string -> Histogram
}.

Section Grover.
Context {Oracle OracleArgs : Type} `{!Collaborators Oracle OracleArgs}.

Local Abbreviation Circuit := (list (Op Oracle OracleArgs)).
Local Abbreviation W := (World Oracle OracleArgs).

(** [circuit.append(ops)] *)
Definition circuit_append (ops : Circuit) (w : W) : W :=
  mkWorld (circuit w ++ ops) (qubits w) (runs w).

(** [cirq.H.on_each] over the unpacked register *)
Definition H_on_each (qs : list Qid) : Circuit := map cirq_H qs.

(** [cirq.measure_each] over the unpacked register: the key of a measurement is [str(qubit)],
    the qubit's name. *)
Definition measure_each (qs : list Qid) : Circuit :=
  map (fun q => cirq_measure q (qubit_name q)) qs.

Definition grover_iteration (w : W) (oracle : Oracle) (oracle_args : OracleArgs) : W :=
  let w := run_flip_marker_as_phase_marker w oracle oracle_args in
  let w := circuit_append (H_on_each (qubits w)) w in
  let w := run_flip_marker_as_phase_marker w check_if_all_zeros PyNone in
  circuit_append (H_on_each (qubits w)) w.

(** [for i in range(0, iterations): body] for a body that ignores [i]. *)
Definition for_range {A : Type} (iterations : Z) (body : A -> A) (a : A) : A :=
  fold_left (fun acc (_ : nat) => body acc) (seq 0 (Z.to_nat iterations)) a.

(** The objects as the call leaves them, whether it returns or line 75
    raises (see [grover_search_raises]). *)
Definition grover_search (w : W) (oracle : Oracle) (oracle_args : OracleArgs) : W :=
  let w := circuit_append (H_on_each (qubits w)) w in
  let iterations := iterations (length (qubits w)) in
  for_range iterations (fun w => grover_iteration w oracle oracle_args) w.

(** Whether the call ends in the [OverflowError] of line 75, the one
    statement of [grover_search] that can raise by itself. *)
Definition grover_search_raises (w : W) : bool :=
  match round_pow2_half (length (qubits (circuit_append (H_on_each (qubits w)) w))) with
  | Some _ => false
  | None => true
  end.

(** [f"{i}"] for a non-negative integer. *)
Definition str_of_nat (i : nat) : string := NilEmpty.string_of_uint (Nat.to_uint i).

(** [f"qubit{i}"] *)
Definition qubit_key (i : nat) : string := String.append "qubit" (str_of_nat i).

(** [cirq.NamedQubit.range(n, prefix=prefix)] *)
Definition NamedQubit_range (n : nat) (prefix : string) : list Qid :=
  map (fun i => NamedQubit (String.append prefix (str_of_nat i))) (seq 0 n).

(** [l[i] = x]; an index outside the list raises [IndexError]. *)
Definition setitem {A : Type} (l : list A) (i : nat) (x : A) : option (list A) :=
  if decide (i < length l)%nat then Some (<[i := x]> l) else None.

(** The body of the read-back loop for one index: the first entry of the
    histogram, when there is one, is stored at [solution[i]]. *)
Definition read_back_one (result : Result) (solution : list Z) (i : nat)
  : option (list Z) :=
  match histogram result (qubit_key i) with
  | [] => Some solution
  | (state, _) :: _ => setitem solution i state
  end.

(** [for i in range(0, number_of_qubits): ...] *)
Fixpoint read_back (result : Result) (indices : list nat) (solution : list Z)
  : option (list Z) :=
  match indices with
  | [] => Some solution
  | i :: rest =>
      match read_back_one result solution i with
      | Some solution' => read_back result rest solution'
      | None => None
      end
  end.

(** [run_grover_search] returns the objects it built, for inspection, and
    the solution ([None] when an exception was raised).  The driver is
    modelled for the calls in which [grover_search] returns: the
    [OverflowError] of line 75 (sizes from 2048 on, see
    [grover_search_raises]) is not passed on here. *)
Definition run_grover_search (number_of_qubits : nat) (oracle : Oracle)
    (oracle_args : OracleArgs) : W * option (list Z) :=
  let qubits0 := NamedQubit_range number_of_qubits "qubit"%string in
  let w := mkWorld [] qubits0 [] in
  let w := grover_search w oracle oracle_args in
  let w := circuit_append (measure_each (qubits w)) w in
  let result := simulator_run (circuit w) 1 in
  let w := mkWorld (circuit w) (qubits w) (runs w ++ [(circuit w, 1%nat)]) in
  let solution := repeat 0 number_of_qubits in
  (w, read_back result (seq 0 number_of_qubits) solution).

(** The operations of one round, when the adapter appends [phase_ops]. *)
Definition round_ops (phase_ops : Oracle -> list Qid -> OracleArgs -> Circuit)
    (oracle : Oracle) (qs : list Qid) (oracle_args : OracleArgs) : Circuit :=
  phase_ops oracle qs oracle_args ++ H_on_each qs
  ++ phase_ops check_if_all_zeros qs PyNone ++ H_on_each qs.

(** The adapter's contract as far as the circuit construction goes: it
    appends operations determined by the oracle, the register and the
    arguments, and touches nothing else. *)
Definition adapter_appends
    (phase_ops : Oracle -> list Qid -> OracleArgs -> Circuit) : Prop :=
  forall (w : W) (o : Oracle) (a : OracleArgs),
    run_flip_marker_as_phase_marker w o a
    = circuit_append (phase_ops o (qubits w) a) w.

(** The weaker contract: the adapter appends some operations to the
    circuit and touches nothing else. *)
Definition adapter_only_appends : Prop :=
  forall (w : W) (o : Oracle) (a : OracleArgs),
    exists ops : Circuit, run_flip_marker_as_phase_marker w o a = circuit_append ops w.


End Grover.

(** ** The Oracle Adapter

    Modelled from the spec: [utility.run_flip_marker_as_phase_marker] is
    imported by [grover.py] and is not among the sources.  The spec's
    construction: allocate one auxiliary qubit initialised to zero, apply a
    transformation bringing it to an equal superposition, run the marking
    oracle with the auxiliary qubit as its flip target, apply the inverse
    transformation to the auxiliary qubit, and discard it.  The equal
    superposition is taken to be the one whose two amplitudes have opposite
    signs (X, then H), the one for which flipping the flag is a sign flip;
    the inverse transformation is H, then X. *)

Module OracleAdapter.

(** Modelled from the spec: the name of the auxiliary qubit that the
    adapter allocates, absent from the sources; a name longer than every
    name in use. *)
Definition fresh_name (used : list Qid) : string :=
  fold_right (fun q acc => String "_" (String.append acc (qubit_name q)))
    "aux"%string used.

(** Modelled from the spec: "allocate one auxiliary qubit", a qubit that is
    not in [used]; the adapter is absent from the sources. *)
Definition allocate (used : list Qid) : Qid := NamedQubit (fresh_name used).

Section Construction.
Context {Oracle OracleArgs : Type}.

(** Modelled from the spec: the operations of the absent
    [run_flip_marker_as_phase_marker]: the auxiliary qubit is brought from
    zero to the superposition with opposite signs, the marking oracle is run
    with it as flip target, and the transformation is undone. *)
Definition phase_marker_ops (oracle : Oracle) (qs : list Qid)
    (oracle_args : OracleArgs) : list (Op Oracle OracleArgs) :=
  let target := allocate qs in
  [cirq_X target; cirq_H target]
  ++ [oracle_call oracle qs target oracle_args]
  ++ [cirq_H target; cirq_X target].

(** Modelled from the spec: the absent
    [utility.run_flip_marker_as_phase_marker(circuit, oracle, qubits,
    oracle_args)], which appends these operations to the circuit. *)
Definition run_flip_marker_as_phase_marker (w : World Oracle OracleArgs)
    (oracle : Oracle) (oracle_args : OracleArgs) : World Oracle OracleArgs :=
  circuit_append (phase_marker_ops oracle (qubits w) oracle_args) w.

End Construction.
End OracleAdapter.

(** ** Amplitudes and the effect of operations on them

    A basis state gives every qubit a bit; a state gives every basis state
    a complex amplitude (a pair of reals).  A marking oracle is given by the
    predicate it computes: [flags o args bits] tells whether the oracle [o],
    called with [args], flags the register contents [bits]. *)

Module Quantum.

Definition C : Type := (R * R)%type.
Definition Czero : C := (0%R, 0%R).
Definition Cplus (z w : C) : C := ((fst z + fst w)%R, (snd z + snd w)%R).
Definition Cscale (r : R) (z : C) : C := ((r * fst z)%R, (r * snd z)%R).

Definition Basis : Type := Qid -> bool.
Definition State : Type := Basis -> C.

Definition assign (s : Basis) (q : Qid) (b : bool) : Basis :=
  fun q' => if decide (q' = q) then b else s q'.

Definition flip (s : Basis) (q : Qid) : Basis := assign s q (negb (s q)).

(** The register holds [psi] and the qubit [q] is zero. *)
Definition with_zero (q : Qid) (psi : State) : State :=
  fun s => if s q then Czero else psi (assign s q false).

Section Semantics.
Context {Oracle OracleArgs : Type}.
Variable flags : Oracle -> OracleArgs -> list bool -> bool.

Definition apply_X (q : Qid) (psi : State) : State :=
  fun s => psi (flip s q).

Definition apply_H (q : Qid) (psi : State) : State :=
  fun s => Cscale (/ sqrt 2)
             (Cplus (psi (assign s q false))
                    (Cscale (if s q then -1 else 1) (psi (assign s q true)))).

(** Modelled from the spec: the operations a marking oracle appends (the
    oracles are absent from the sources) flip [target] on the register
    contents the oracle flags. *)
Definition apply_marking (o : Oracle) (qs : list Qid) (target : Qid)
    (args : OracleArgs) (psi : State) : State :=
  fun s => psi (if flags o args (map s qs) then flip s target else s).

(** Measurements are not amplitude transformations. *)
Definition apply_op (op : Op Oracle OracleArgs) : option (State -> State) :=
  match op with
  | cirq_H q => Some (apply_H q)
  | cirq_X q => Some (apply_X q)
  | cirq_measure _ _ => None
  | oracle_call o qs target args => Some (apply_marking o qs target args)
  end.

Fixpoint apply_ops (ops : list (Op Oracle OracleArgs)) (psi : State)
  : option State :=
  match ops with
  | [] => Some psi
  | op :: rest =>
      match apply_op op with
      | Some f => apply_ops rest (f psi)
      | None => None
      end
  end.

(** The phase oracle of the same predicate: flagged register contents get
    the amplitude negated. *)
Definition phase_flip (o : Oracle) (qs : list Qid) (args : OracleArgs)
    (psi : State) : State :=
  fun s => if flags o args (map s qs) then Cscale (-1) (psi s) else psi s.

End Semantics.
End Quantum.

(** ** A concrete set of collaborators

    The adapter above, oracles named by strings, and a simulator whose
    results are given as a table. *)

Module Demo.

Definition Oracle : Type := string.
Definition OracleArgs : Type := option (list bool).

Definition table : Type := list (string * Histogram).

Fixpoint table_lookup (t : table) (key : string) : Histogram :=
  match t with
  | [] => []
  | (k, h) :: rest => if String.eqb k key then h else table_lookup rest key
  end.

(** One repetition in which qubit0 read 1 and qubit1 read 0; nothing is
    recorded for any other key. *)
Definition sample : table := [("qubit0"%string, [(1, 1%nat)]); ("qubit1"%string, [(0, 1%nat)])].

#[global] Instance collaborators : Collaborators Oracle OracleArgs := {|
  run_flip_marker_as_phase_marker := OracleAdapter.run_flip_marker_as_phase_marker;
  check_if_all_zeros := "check_if_all_zeros"%string;
  PyNone := None;
  Result := table;
  simulator_run := fun _ _ => sample;
  histogram := table_lookup
|}.

Definition w0 : World Oracle OracleArgs :=
  mkWorld [cirq_X (NamedQubit "q"%string)]
          [NamedQubit "a"%string; NamedQubit "b"%string] [].

End Demo.

Module PyNumFacts.
Import PyNum.

Lemma ln2_pos : (0 < ln 2)%R.
Proof. pose proof ln_lt_2. lra. Qed.

Lemma pow2_pos z : (0 < pow2 z)%R.
Proof. unfold pow2, Rpower. apply exp_pos. Qed.

Lemma pow2_add a b : pow2 (a + b) = (pow2 a * pow2 b)%R.
Proof. unfold pow2. rewrite plus_IZR. apply Rpower_plus. Qed.

Lemma pow2_0 : pow2 0 = 1%R.
Proof. unfold pow2. apply Rpower_O. lra. Qed.

Lemma pow2_nonneg z : 0 <= z -> pow2 z = IZR (2 ^ z).
Proof.
  intros Hz. unfold pow2.
  rewrite <- (Z2Nat.id z Hz) at 1. rewrite <- INR_IZR_INZ.
  rewrite Rpower_pow by lra.
  rewrite <- (Z2Nat.id z Hz) at 2. rewrite <- pow_IZR. reflexivity.
Qed.

Lemma Rpower2_lt x y : (x < y)%R -> (Rpower 2 x < Rpower 2 y)%R.
Proof. intros H. apply Rpower_lt; lra. Qed.

Lemma Rpower2_le x y : (x <= y)%R -> (Rpower 2 x <= Rpower 2 y)%R.
Proof.
  intros [H | ->]; [left; now apply Rpower2_lt | right; reflexivity].
Qed.

Lemma pow2_le a b : a <= b -> (pow2 a <= pow2 b)%R.
Proof. intros H. apply Rpower2_le. now apply IZR_le. Qed.

Lemma pow2_lt a b : a < b -> (pow2 a < pow2 b)%R.
Proof. intros H. apply Rpower2_lt. now apply IZR_lt. Qed.

Lemma pow2_cancel a : (pow2 a * pow2 (- a) = 1)%R.
Proof. rewrite <- pow2_add. replace (a + - a) with 0 by lia. apply pow2_0. Qed.

Lemma Rpower2_log x : (0 < x)%R -> Rpower 2 (ln x / ln 2) = x.
Proof.
  intros Hx. unfold Rpower.
  replace (ln x / ln 2 * ln 2)%R with (ln x) by (field; pose proof ln2_pos; lra).
  now apply exp_ln.
Qed.

Lemma ilog2_spec x : (0 < x)%R -> (pow2 (ilog2 x) <= x < pow2 (ilog2 x + 1))%R.
Proof.
  intros Hx. unfold ilog2, pow2.
  destruct (base_Int_part (ln x / ln 2)) as [Hlo Hhi].
  rewrite <- (Rpower2_log x Hx) at 2 3.
  split; [apply Rpower2_le; exact Hlo |].
  apply Rpower2_lt. rewrite plus_IZR. lra.
Qed.

Lemma ilog2_unique x e : (pow2 e <= x < pow2 (e + 1))%R -> ilog2 x = e.
Proof.
  intros [Hlo Hhi].
  assert (Hx : (0 < x)%R) by (pose proof (pow2_pos e); lra).
  destruct (ilog2_spec x Hx) as [Hlo' Hhi'].
  destruct (Z.lt_trichotomy (ilog2 x) e) as [Hlt | [Heq | Hgt]]; [exfalso | exact Heq | exfalso].
  - pose proof (pow2_le (ilog2 x + 1) e ltac:(lia)). lra.
  - pose proof (pow2_le (e + 1) (ilog2 x) ltac:(lia)). lra.
Qed.

Lemma py_round_near (x : R) (k : Z) :
  (IZR k - 1 / 2 < x < IZR k + 1 / 2)%R -> py_round x = k.
Proof.
  intros [Hlo Hhi]. unfold py_round.
  destruct (base_Int_part x) as [Hf1 Hf2].
  set (f := Int_part x) in *.
  assert (Hfk : f = k - 1 \/ f = k).
  { assert (H1 : 2 * f < 2 * k + 1).
    { apply lt_IZR. rewrite plus_IZR, !mult_IZR. lra. }
    assert (H2 : 2 * k - 1 < 2 * f + 2).
    { apply lt_IZR. rewrite minus_IZR, plus_IZR, !mult_IZR. lra. }
    lia. }
  destruct Hfk as [-> | ->].
  - rewrite minus_IZR in *.
    destruct (Rlt_dec _ _) as [Hd | Hd]; [lra |].
    destruct (Rlt_dec _ _) as [Hd' | Hd']; [lia | lra].
  - destruct (Rlt_dec _ _) as [Hd | Hd]; [reflexivity | lra].
Qed.

Lemma py_round_IZR z : py_round (IZR z) = z.
Proof. apply py_round_near. lra. Qed.

Lemma py_round_ge x z : (IZR z <= x)%R -> z <= py_round x.
Proof.
  intros Hz. unfold py_round.
  destruct (base_Int_part x) as [Hf1 Hf2].
  set (f := Int_part x) in *.
  assert (Hzf : z <= f).
  { assert (z < f + 1); [| lia]. apply lt_IZR. rewrite plus_IZR. lra. }
  destruct (Rlt_dec _ _); [exact Hzf |].
  destruct (Rlt_dec _ _); [lia |].
  destruct (Z.even f); lia.
Qed.

Lemma py_round_div (a d : Z) :
  0 < d -> py_round (IZR a / IZR d) = round_half_even_div a d.
Proof.
  intros Hd. unfold py_round, round_half_even_div.
  pose proof (Z.div_mod a d ltac:(lia)) as Hdm.
  pose proof (Z.mod_pos_bound a d Hd) as Hr.
  set (q := a / d) in *. set (r := a mod d) in *.
  assert (HdR : (0 < IZR d)%R) by now apply IZR_lt.
  assert (Hval : (IZR a / IZR d = IZR q + IZR r / IZR d)%R).
  { rewrite Hdm, plus_IZR, mult_IZR. field. lra. }
  assert (Hr0 : (0 <= IZR r < IZR d)%R) by (split; [apply IZR_le | apply IZR_lt]; lia).
  assert (Hfrac : (0 <= IZR r / IZR d < 1)%R).
  { split.
    - apply Rmult_le_pos; [lra | left; now apply Rinv_0_lt_compat].
    - apply (Rmult_lt_reg_r (IZR d)); [exact HdR |].
      unfold Rdiv. rewrite Rmult_assoc, Rinv_l by lra. lra. }
  assert (Hf : Int_part (IZR a / IZR d) = q).
  { symmetry. apply Int_part_spec. rewrite Hval. lra. }
  rewrite Hf, Hval.
  replace (IZR q + IZR r / IZR d - IZR q)%R with (IZR r / IZR d)%R by ring.
  assert (Hcmp : forall c : R, (IZR r / IZR d < c <-> IZR r < c * IZR d)%R).
  { intros c. split; intros H.
    - apply (Rmult_lt_compat_r (IZR d)) in H; [| exact HdR].
      unfold Rdiv in H. rewrite Rmult_assoc, Rinv_l, Rmult_1_r in H by lra. exact H.
    - apply (Rmult_lt_reg_r (IZR d)); [exact HdR |].
      unfold Rdiv. rewrite Rmult_assoc, Rinv_l, Rmult_1_r by lra. exact H. }
  assert (Hcmp' : forall c : R, (c < IZR r / IZR d <-> c * IZR d < IZR r)%R).
  { intros c. split; intros H.
    - apply (Rmult_lt_compat_r (IZR d)) in H; [| exact HdR].
      unfold Rdiv in H. rewrite Rmult_assoc, Rinv_l, Rmult_1_r in H by lra. exact H.
    - apply (Rmult_lt_reg_r (IZR d)); [exact HdR |].
      unfold Rdiv. rewrite Rmult_assoc, Rinv_l, Rmult_1_r by lra. exact H. }
  destruct (Rlt_dec (IZR r / IZR d) (1 / 2)) as [H1 | H1].
  - apply Hcmp in H1.
    assert (2 * r < d) by (apply lt_IZR; rewrite mult_IZR; lra).
    destruct (Z.ltb_spec (2 * r) d); [reflexivity | lia].
  - assert (Hge : d <= 2 * r).
    { apply le_IZR. rewrite mult_IZR. apply Rnot_lt_le. intros Hc. apply H1, Hcmp. lra. }
    destruct (Z.ltb_spec (2 * r) d); [lia |].
    destruct (Rlt_dec (1 / 2) (IZR r / IZR d)) as [H2 | H2].
    + apply Hcmp' in H2.
      assert (d < 2 * r) by (apply lt_IZR; rewrite mult_IZR; lra).
      destruct (Z.ltb_spec d (2 * r)); [reflexivity | lia].
    + assert (Hle : 2 * r <= d).
      { apply le_IZR. rewrite mult_IZR. apply Rnot_lt_le. intros Hc. apply H2, Hcmp'. lra. }
      destruct (Z.ltb_spec d (2 * r)); [lia | reflexivity].
Qed.


Lemma round_binary64_pos x : (0 < x)%R ->
  round_binary64 x = (IZR (py_round (x * pow2 (52 - ilog2 x))) * pow2 (ilog2 x - 52))%R.
Proof. intros Hx. unfold round_binary64. destruct (Rle_dec x 0); [lra | reflexivity]. Qed.

(** A value with a 53-bit significand is kept. *)
Lemma round_binary64_normal (m t : Z) :
  2 ^ 52 <= m < 2 ^ 53 ->
  round_binary64 (IZR m * pow2 t) = (IZR m * pow2 t)%R.
Proof.
  intros [Hlo Hhi].
  pose proof (pow2_pos t) as Ht.
  assert (HmR : (pow2 52 <= IZR m < pow2 53)%R).
  { rewrite !pow2_nonneg by lia. split; [apply IZR_le | apply IZR_lt]; assumption. }
  assert (Hx : (0 < IZR m * pow2 t)%R).
  { apply Rmult_lt_0_compat; [| exact Ht]. pose proof (pow2_pos 52). lra. }
  assert (He : ilog2 (IZR m * pow2 t) = 52 + t).
  { apply ilog2_unique.
    replace (52 + t + 1) with (53 + t) by lia. rewrite !pow2_add.
    split; [apply Rmult_le_compat_r | apply Rmult_lt_compat_r]; lra. }
  rewrite round_binary64_pos by exact Hx. rewrite He.
  replace (52 - (52 + t)) with (- t) by lia.
  replace (52 + t - 52) with t by lia.
  rewrite Rmult_assoc, pow2_cancel, Rmult_1_r, py_round_IZR. reflexivity.
Qed.

(** So is every integer below 2^53 scaled by a power of two. *)
Lemma round_binary64_dyadic (a t : Z) :
  0 <= a < 2 ^ 53 ->
  round_binary64 (IZR a * pow2 t) = (IZR a * pow2 t)%R.
Proof.
  intros [Ha0 Ha].
  destruct (Z.eq_dec a 0) as [-> | Hne].
  - rewrite Rmult_0_l. unfold round_binary64.
    destruct (Rle_dec 0 0); [reflexivity | lra].
  - pose proof (Z.log2_spec a ltac:(lia)) as [Hb1 Hb2].
    pose proof (Z.log2_nonneg a) as Hb0.
    set (b := Z.log2 a) in *.
    assert (Hb : b <= 52).
    { destruct (Z_le_gt_dec b 52) as [H | H]; [exact H | exfalso].
      pose proof (Z.pow_le_mono_r 2 53 b ltac:(lia) ltac:(lia)). lia. }
    replace (IZR a * pow2 t)%R with (IZR (a * 2 ^ (52 - b)) * pow2 (t - (52 - b)))%R.
    + apply round_binary64_normal.
      replace (2 ^ 52) with (2 ^ b * 2 ^ (52 - b))
        by (rewrite <- Z.pow_add_r by lia; f_equal; lia).
      replace (2 ^ 53) with (2 ^ (Z.succ b) * 2 ^ (52 - b))
        by (rewrite <- Z.pow_add_r by lia; f_equal; lia).
      assert (0 < 2 ^ (52 - b)) by (apply Z.pow_pos_nonneg; lia).
      split; nia.
    + rewrite mult_IZR, <- pow2_nonneg by lia.
      rewrite Rmult_assoc, <- pow2_add. do 2 f_equal. lia.
Qed.

(** Rounding does not go below a power of two that the value reaches. *)
Lemma round_binary64_ge (x : R) (j : Z) :
  (pow2 j <= x)%R -> (pow2 j <= round_binary64 x)%R.
Proof.
  intros Hj.
  assert (Hx : (0 < x)%R) by (pose proof (pow2_pos j); lra).
  destruct (ilog2_spec x Hx) as [Hlo Hhi].
  rewrite round_binary64_pos by exact Hx.
  set (e := ilog2 x) in *.
  assert (Hje : j <= e).
  { destruct (Z_le_gt_dec j e) as [H | H]; [exact H | exfalso].
    pose proof (pow2_le (e + 1) j ltac:(lia)). lra. }
  assert (Hm : 2 ^ 52 <= py_round (x * pow2 (52 - e))).
  { apply py_round_ge. rewrite <- pow2_nonneg by lia.
    replace 52 with (e + (52 - e)) at 1 by lia. rewrite pow2_add.
    apply Rmult_le_compat_r; [left; apply pow2_pos | exact Hlo]. }
  apply IZR_le in Hm. rewrite <- pow2_nonneg in Hm by lia.
  apply Rle_trans with (pow2 e); [now apply pow2_le |].
  replace e with (52 + (e - 52)) at 1 by lia. rewrite pow2_add.
  apply Rmult_le_compat_r; [left; apply pow2_pos | exact Hm].
Qed.


(** *** The real number 2^(n/2) and the integer nearest to it *)

Lemma real_pow2_half_pos n : (0 < Rpower 2 (INR n / 2))%R.
Proof. unfold Rpower. apply exp_pos. Qed.

Lemma real_pow2_half_sqr n :
  (Rpower 2 (INR n / 2) * Rpower 2 (INR n / 2) = IZR (2 ^ Z.of_nat n))%R.
Proof.
  rewrite <- Rpower_plus.
  replace (INR n / 2 + INR n / 2)%R with (INR n) by lra.
  rewrite Rpower_pow by lra.
  rewrite <- pow_IZR. reflexivity.
Qed.

Lemma round_sqrt_pow2_bounds n :
  let k := round_sqrt_pow2 n in
  (2 * k - 1) * (2 * k - 1) < 2 ^ (Z.of_nat n + 2)
  /\ 2 ^ (Z.of_nat n + 2) < (2 * k + 1) * (2 * k + 1)
  /\ 1 <= k.
Proof.
  cbv zeta. unfold round_sqrt_pow2.
  set (m := 2 ^ (Z.of_nat n + 2)).
  assert (Hm4 : 4 <= m).
  { unfold m. change 4 with (2 ^ 2).
    apply Z.pow_le_mono_r; lia. }
  assert (Hm : 0 <= m) by lia.
  pose proof (Z.sqrt_spec m Hm) as [Hlo Hhi].
  set (s := Z.sqrt m) in *.
  assert (Hs : 0 <= s) by apply Z.sqrt_nonneg.
  assert (Hs2 : 2 <= s) by nia.
  pose proof (Z.div_mod (s + 1) 2 ltac:(lia)) as Hdm.
  pose proof (Z.mod_pos_bound (s + 1) 2 ltac:(lia)) as Hmb.
  set (k := (s + 1) / 2) in *.
  assert (Hcase : s = 2 * k - 1 \/ s = 2 * k) by lia.
  repeat split.
  - destruct Hcase as [Hc | Hc].
    + assert (Hne : s * s <> m).
      { intros Heq.
        assert (Hodd : Z.odd (s * s) = true).
        { rewrite Z.odd_mul. rewrite Hc.
          replace (2 * k - 1) with (1 + 2 * (k - 1)) by lia.
          rewrite Z.odd_add_mul_2. reflexivity. }
        rewrite Heq in Hodd. unfold m in Hodd.
        rewrite Z.odd_pow in Hodd by lia. discriminate. }
      rewrite <- Hc. lia.
    + nia.
  - destruct Hcase as [Hc | Hc]; nia.
  - lia.
Qed.

Lemma round_sqrt_pow2_near n :
  (IZR (round_sqrt_pow2 n) - 1 / 2 < Rpower 2 (INR n / 2)
   < IZR (round_sqrt_pow2 n) + 1 / 2)%R.
Proof.
  pose proof (round_sqrt_pow2_bounds n) as (Hlo & Hhi & Hk).
  cbv zeta in *. set (k := round_sqrt_pow2 n) in *.
  pose proof (real_pow2_half_pos n) as Hx.
  pose proof (real_pow2_half_sqr n) as Hsq.
  set (x := Rpower 2 (INR n / 2)) in *.
  replace (2 ^ (Z.of_nat n + 2)) with (4 * 2 ^ Z.of_nat n) in Hlo, Hhi
    by (rewrite Z.pow_add_r by lia; lia).
  apply IZR_lt in Hlo, Hhi. apply IZR_le in Hk.
  rewrite !mult_IZR in Hlo, Hhi.
  rewrite minus_IZR, mult_IZR in Hlo.
  rewrite plus_IZR, mult_IZR in Hhi.
  rewrite <- Hsq in Hlo, Hhi.
  set (r := IZR k) in *.
  split.
  - destruct (Rlt_le_dec (r - 1 / 2) x) as [Hlt | Hle]; [exact Hlt | exfalso].
    assert (Hmul : (2 * x * (2 * x) <= (2 * r - 1) * (2 * r - 1))%R)
      by (apply Rmult_le_compat; lra).
    lra.
  - destruct (Rlt_le_dec x (r + 1 / 2)) as [Hlt | Hle]; [exact Hlt | exfalso].
    assert (Hmul : ((2 * r + 1) * (2 * r + 1) <= 2 * x * (2 * x))%R)
      by (apply Rmult_le_compat; lra).
    lra.
Qed.

Lemma nearest_pow2_half_eq n : nearest_pow2_half n = round_sqrt_pow2 n.
Proof. unfold nearest_pow2_half. apply py_round_near, round_sqrt_pow2_near. Qed.

(** *** The double nearest to 2^(k + 1/2) *)

Lemma sqrt2_significand_eq : round_sqrt_pow2 105 = sqrt2_significand.
Proof. vm_compute. reflexivity. Qed.

Lemma round_binary64_half (k : Z) :
  round_binary64 (Rpower 2 (IZR k + 1 / 2)) = (IZR sqrt2_significand * pow2 (k - 52))%R.
Proof.
  set (x := Rpower 2 (IZR k + 1 / 2)).
  assert (Hx : (0 < x)%R) by (unfold x, Rpower; apply exp_pos).
  assert (He : ilog2 x = k).
  { apply ilog2_unique. unfold x, pow2. split.
    - apply Rpower2_le. lra.
    - apply Rpower2_lt. rewrite plus_IZR. lra. }
  rewrite round_binary64_pos by exact Hx. rewrite He.
  assert (Hscaled : (x * pow2 (52 - k) = Rpower 2 (INR 105 / 2))%R).
  { unfold x, pow2. rewrite <- Rpower_plus. f_equal.
    rewrite minus_IZR.
    replace (INR 105) with 105%R by (rewrite INR_IZR_INZ; reflexivity).
    lra. }
  rewrite Hscaled, (py_round_near _ (round_sqrt_pow2 105)) by apply round_sqrt_pow2_near.
  rewrite sqrt2_significand_eq. reflexivity.
Qed.


(** *** Line 75 in closed form *)

Lemma finite_lt x : (x < pow2 1024)%R -> finite_or_overflow x = Some x.
Proof. intros H. unfold finite_or_overflow. destruct (Rle_dec _ _); [lra | reflexivity]. Qed.

Lemma finite_ge x : (pow2 1024 <= x)%R -> finite_or_overflow x = None.
Proof. intros H. unfold finite_or_overflow. destruct (Rle_dec _ _); [reflexivity | lra]. Qed.

Lemma pow2_m1 : pow2 (-1) = (/ 2)%R.
Proof.
  pose proof (pow2_cancel 1) as H. rewrite (pow2_nonneg 1) in H by lia.
  change (2 ^ 1) with 2 in H. change (- (1)) with (-1) in H.
  apply (Rmult_eq_reg_l 2); [| lra]. rewrite H. field.
Qed.

Lemma py_truediv_small (n : Z) :
  0 <= n < 2048 -> py_truediv n 2 = Some (IZR n / 2)%R.
Proof.
  intros Hn. unfold py_truediv.
  replace (IZR n / 2)%R with (IZR n * pow2 (-1))%R by (rewrite pow2_m1; reflexivity).
  rewrite round_binary64_dyadic by (change (2 ^ 53) with 9007199254740992; lia).
  apply finite_lt. rewrite pow2_m1, (pow2_nonneg 1024) by lia.
  assert (IZR n < 2048)%R by (apply IZR_lt; lia).
  assert (2048 <= IZR (2 ^ 1024))%R by (apply IZR_le; vm_compute; discriminate).
  lra.
Qed.

Lemma py_pow_integer (k : Z) :
  0 <= k < 1024 -> py_pow 2 (IZR k) = Some (IZR (2 ^ k)).
Proof.
  intros Hk. unfold py_pow. fold (pow2 k).
  replace (pow2 k) with (IZR 1 * pow2 k)%R by ring.
  rewrite round_binary64_dyadic by (change (2 ^ 53) with 9007199254740992; lia).
  rewrite Rmult_1_l, finite_lt by (apply pow2_lt; lia).
  now rewrite pow2_nonneg by lia.
Qed.

Lemma sqrt2_significand_range : 2 ^ 52 <= sqrt2_significand < 2 ^ 53.
Proof. vm_compute. split; [discriminate | reflexivity]. Qed.

Lemma py_pow_half (k : Z) :
  0 <= k < 1024 ->
  py_pow 2 (IZR (2 * k + 1) / 2) = Some (IZR sqrt2_significand * pow2 (k - 52))%R.
Proof.
  intros Hk. unfold py_pow.
  replace (IZR (2 * k + 1) / 2)%R with (IZR k + 1 / 2)%R
    by (rewrite plus_IZR, mult_IZR; field).
  rewrite round_binary64_half. apply finite_lt.
  destruct sqrt2_significand_range as [_ Hhi]. apply IZR_lt in Hhi.
  rewrite <- (pow2_nonneg 53) in Hhi by lia.
  apply Rlt_le_trans with (pow2 53 * pow2 (k - 52))%R.
  - apply Rmult_lt_compat_r; [apply pow2_pos | exact Hhi].
  - rewrite <- pow2_add. apply pow2_le. lia.
Qed.

Lemma py_round_significand (k : Z) :
  0 <= k ->
  py_round (IZR sqrt2_significand * pow2 (k - 52))
  = if 52 <=? k then sqrt2_significand * 2 ^ (k - 52)
    else round_half_even_div sqrt2_significand (2 ^ (52 - k)).
Proof.
  intros Hk. destruct (Z.leb_spec 52 k) as [Hge | Hlt].
  - rewrite pow2_nonneg by lia. rewrite <- mult_IZR. apply py_round_IZR.
  - rewrite <- py_round_div by (apply Z.pow_pos_nonneg; lia).
    f_equal. unfold Rdiv. f_equal.
    rewrite <- pow2_nonneg by lia.
    apply (Rmult_eq_reg_l (pow2 (52 - k))); [| pose proof (pow2_pos (52 - k)); lra].
    rewrite Rinv_r by (pose proof (pow2_pos (52 - k)); lra).
    replace (k - 52) with (- (52 - k)) by lia. apply pow2_cancel.
Qed.

Lemma pow2_half_overflow (n : nat) : (2048 <= n)%nat -> pow2_half n = None.
Proof.
  intros Hn. unfold pow2_half, py_truediv.
  set (h := round_binary64 (IZR (Z.of_nat n) / 2)).
  assert (Hh : (pow2 10 <= h)%R).
  { apply round_binary64_ge. rewrite (pow2_nonneg 10) by lia.
    change (2 ^ 10) with 1024.
    assert (2048 <= IZR (Z.of_nat n))%R by (apply IZR_le; lia). lra. }
  unfold finite_or_overflow at 1. destruct (Rle_dec (pow2 1024) h); [reflexivity |].
  unfold py_pow. apply finite_ge, round_binary64_ge.
  unfold pow2 at 1. apply Rpower2_le.
  rewrite (pow2_nonneg 10) in Hh by lia. exact Hh.
Qed.

Theorem round_pow2_half_closed_eq (n : nat) :
  round_pow2_half n = round_pow2_half_closed n.
Proof.
  unfold round_pow2_half, round_pow2_half_closed.
  destruct (Nat.ltb_spec n 2048) as [Hn | Hn].
  - unfold pow2_half. rewrite py_truediv_small by lia.
    destruct (Nat.even n) eqn:Hpar.
    + apply Nat.even_spec in Hpar as [m ->].
      replace (2 * m / 2)%nat with m
        by (apply (Nat.div_unique _ 2 m 0); lia).
      replace (IZR (Z.of_nat (2 * m)) / 2)%R with (IZR (Z.of_nat m))
        by (rewrite Nat2Z.inj_mul, mult_IZR; simpl (Z.of_nat 2); field).
      rewrite py_pow_integer by lia. cbn [option_map]. now rewrite py_round_IZR.
    + assert (Hodd : Nat.odd n = true) by (rewrite <- Nat.negb_even, Hpar; reflexivity).
      apply Nat.odd_spec in Hodd as [m ->].
      replace ((2 * m + 1) / 2)%nat with m
        by (apply (Nat.div_unique _ 2 m 1); lia).
      replace (Z.of_nat (2 * m + 1)) with (2 * Z.of_nat m + 1) by lia.
      rewrite py_pow_half by lia. cbn [option_map].
      rewrite py_round_significand by lia.
      destruct (52 <=? Z.of_nat m); reflexivity.
  - rewrite pow2_half_overflow by exact Hn. reflexivity.
Qed.


Lemma iterations_closed (n : nat) :
  iterations n = match round_pow2_half_closed n with Some count => count | None => 0 end.
Proof. unfold iterations. now rewrite round_pow2_half_closed_eq. Qed.

Lemma forallb_seq (P : nat -> bool) (m : nat) :
  forallb P (seq 0 m) = true -> forall n, (n < m)%nat -> P n = true.
Proof.
  intros Hall n Hn. rewrite forallb_forall in Hall.
  apply Hall, in_seq. lia.
Qed.

(** Below 2048 line 75 returns; its value is [iterations]. *)
Lemma round_pow2_half_below (n : nat) :
  (n < 2048)%nat ->
  round_pow2_half n = Some (iterations n)
  /\ 1 <= iterations n
  /\ iterations n
     = (if Nat.even n then 2 ^ Z.of_nat (n / 2)
        else py_round (IZR sqrt2_significand * pow2 (Z.of_nat (n / 2) - 52))).
Proof.
  intros Hn.
  assert (Hcheck : forallb (fun n => match round_pow2_half_closed n with
                                     | Some count => 1 <=? count
                                     | None => false
                                     end) (seq 0 2048) = true)
    by (vm_compute; reflexivity).
  pose proof (forallb_seq _ _ Hcheck n Hn) as Hone. cbv beta in Hone.
  unfold iterations. rewrite round_pow2_half_closed_eq.
  destruct (round_pow2_half_closed n) as [count |] eqn:Hclosed; [| discriminate].
  split; [reflexivity |]. split; [lia |].
  unfold round_pow2_half_closed in Hclosed.
  destruct (Nat.ltb_spec n 2048) as [_ | Hge]; [| lia].
  cbv zeta in Hclosed.
  rewrite py_round_significand by lia.
  destruct (Nat.even n); [congruence |].
  destruct (52 <=? Z.of_nat (n / 2)); congruence.
Qed.

Lemma round_sqrt_pow2_even (m : nat) : round_sqrt_pow2 (2 * m) = 2 ^ Z.of_nat m.
Proof.
  unfold round_sqrt_pow2.
  replace (Z.of_nat (2 * m) + 2) with (Z.of_nat m + 1 + (Z.of_nat m + 1)) by lia.
  rewrite Z.pow_add_r by lia.
  rewrite Z.sqrt_square by (apply Z.pow_nonneg; lia).
  rewrite Z.pow_add_r by lia. change (2 ^ 1) with 2.
  replace (2 ^ Z.of_nat m * 2 + 1) with (1 + 2 ^ Z.of_nat m * 2) by lia.
  rewrite Z.div_add by lia. reflexivity.
Qed.

(** The double-precision count is the nearest integer to 2^(n/2) for even
    sizes and for all sizes up to 106. *)
Lemma iterations_nearest (n : nat) :
  (n < 2048)%nat ->
  Nat.even n = true \/ (n <= 106)%nat ->
  iterations n = nearest_pow2_half n.
Proof.
  intros Hn Hexact. rewrite nearest_pow2_half_eq, iterations_closed.
  destruct Hexact as [Heven | Hsmall].
  - unfold round_pow2_half_closed.
    destruct (Nat.ltb_spec n 2048) as [_ | Hge]; [| lia].
    cbv zeta. rewrite Heven.
    apply Nat.even_spec in Heven as [m ->].
    rewrite round_sqrt_pow2_even.
    replace (2 * m / 2)%nat with m by (apply (Nat.div_unique _ 2 m 0); lia).
    reflexivity.
  - assert (Hcheck : forallb (fun n => match round_pow2_half_closed n with
                                       | Some count => count =? round_sqrt_pow2 n
                                       | None => false
                                       end) (seq 0 107) = true)
      by (vm_compute; reflexivity).
    pose proof (forallb_seq _ _ Hcheck n ltac:(lia)) as Hn'. cbv beta in Hn'.
    destruct (round_pow2_half_closed n); [| discriminate].
    now apply Z.eqb_eq.
Qed.

End PyNumFacts.

(** ** The amplification engine: [grover_iteration] and [grover_search] *)

Section GroverFacts.
Context {Oracle OracleArgs : Type} `{!Collaborators Oracle OracleArgs}.

Local Abbreviation Circuit := (list (Op Oracle OracleArgs)).
Local Abbreviation W := (World Oracle OracleArgs).

Lemma circuit_append_nil (w : W) : circuit_append [] w = w.
Proof. destruct w as [c q r]. unfold circuit_append. simpl. now rewrite app_nil_r. Qed.

Lemma circuit_append_append (ops1 ops2 : Circuit) (w : W) :
  circuit_append ops2 (circuit_append ops1 w) = circuit_append (ops1 ++ ops2) w.
Proof. unfold circuit_append. simpl. now rewrite app_assoc. Qed.

Lemma for_range_iter {A : Type} (k : Z) (body : A -> A) (a : A) :
  for_range k body a = Nat.iter (Z.to_nat k) (fun x => body x) a.
Proof.
  unfold for_range. generalize 0%nat as start.
  revert a. induction (Z.to_nat k) as [| m IH]; intros a start; simpl.
  - reflexivity.
  - rewrite IH. clear IH. induction m as [| m IHm]; simpl.
    + reflexivity.
    + now rewrite IHm.
Qed.

(** Rounds appended one after the other *)
Lemma iter_append (ops : Circuit) (m : nat) (w : W) :
  Nat.iter m (circuit_append ops) w = circuit_append (concat (repeat ops m)) w.
Proof.
  induction m as [| m IH]; simpl.
  - now rewrite circuit_append_nil.
  - rewrite IH, circuit_append_append. f_equal.
    clear IH. induction m as [| m IHm]; simpl.
    + now rewrite !app_nil_r.
    + rewrite <- app_assoc. now rewrite IHm.
Qed.

Section WithAdapterContract.
Variable phase_ops : Oracle -> list Qid -> OracleArgs -> Circuit.
Hypothesis contract : adapter_appends phase_ops.

Lemma grover_iteration_appends (w : W) (o : Oracle) (a : OracleArgs) :
  grover_iteration w o a = circuit_append (round_ops phase_ops o (qubits w) a) w.
Proof.
  unfold grover_iteration, round_ops.
  rewrite !contract. simpl.
  rewrite !circuit_append_append, <- ?app_assoc. reflexivity.
Qed.

Lemma grover_rounds_append (m : nat) (w : W) (o : Oracle) (a : OracleArgs) :
  Nat.iter m (fun w' => grover_iteration w' o a) w
  = circuit_append (concat (repeat (round_ops phase_ops o (qubits w) a) m)) w.
Proof.
  rewrite <- iter_append.
  induction m as [| m IH]; simpl.
  - reflexivity.
  - rewrite IH, grover_iteration_appends. f_equal.
    now rewrite iter_append.
Qed.

Lemma grover_search_appends (w : W) (o : Oracle) (a : OracleArgs) :
  grover_search w o a
  = circuit_append
      (H_on_each (qubits w)
       ++ concat (repeat (round_ops phase_ops o (qubits w) a)
                         (Z.to_nat (iterations (length (qubits w)))))) w.
Proof.
  unfold grover_search. rewrite for_range_iter.
  rewrite grover_rounds_append. simpl.
  now rewrite circuit_append_append.
Qed.

End WithAdapterContract.
End GroverFacts.

(** ** The search driver: allocation, measurement keys and read-back *)

Section DriverFacts.
Context {Oracle OracleArgs : Type} `{!Collaborators Oracle OracleArgs}.

Local Abbreviation Circuit := (list (Op Oracle OracleArgs)).
Local Abbreviation W := (World Oracle OracleArgs).

Lemma lookup_map {A B : Type} (f : A -> B) (l : list A) (i : nat) :
  map f l !! i = f <$> (l !! i).
Proof.
  revert i. induction l as [| x l IH]; intros [| i]; simpl; try reflexivity.
  apply IH.
Qed.


Lemma NamedQubit_range_length (n : nat) (prefix : string) :
  length (NamedQubit_range n prefix) = n.
Proof. unfold NamedQubit_range. now rewrite length_map, length_seq. Qed.

Lemma NamedQubit_range_lookup (n i : nat) (prefix : string) :
  (i < n)%nat ->
  NamedQubit_range n prefix !! i = Some (NamedQubit (String.append prefix (str_of_nat i))).
Proof.
  intros Hi. unfold NamedQubit_range.
  rewrite lookup_map, lookup_seq_lt by exact Hi. reflexivity.
Qed.

Lemma NamedQubit_range_lookup_inv (n i : nat) (prefix : string) (q : Qid) :
  NamedQubit_range n prefix !! i = Some q ->
  (i < n)%nat /\ q = NamedQubit (String.append prefix (str_of_nat i)).
Proof.
  intros Hq.
  assert (Hi : (i < n)%nat).
  { apply lookup_lt_Some in Hq. now rewrite NamedQubit_range_length in Hq. }
  split; [exact Hi |].
  rewrite NamedQubit_range_lookup in Hq by exact Hi. congruence.
Qed.


(** Decimal printing does not confuse two indices. *)
Lemma str_of_nat_inj (i j : nat) : str_of_nat i = str_of_nat j -> i = j.
Proof.
  unfold str_of_nat. intros Heq.
  apply DecimalNat.Unsigned.to_uint_inj.
  assert (Hs : Some (Nat.to_uint i) = Some (Nat.to_uint j)).
  { rewrite <- !NilEmpty.usu. now rewrite Heq. }
  congruence.
Qed.






End DriverFacts.

(** ** The Oracle Adapter turns a flag flip into a sign flip *)

Module OracleAdapterFacts.
Import OracleAdapter Quantum.

Lemma length_append (a b : string) :
  String.length (String.append a b) = (String.length a + String.length b)%nat.
Proof. induction a as [| c a IH]; simpl; [reflexivity | now rewrite IH]. Qed.

Lemma fresh_name_longer (used : list Qid) (q : Qid) :
  In q used -> (String.length (qubit_name q) < String.length (fresh_name used))%nat.
Proof.
  induction used as [| q0 used IH]; simpl; [contradiction |].
  rewrite length_append. intros [-> | Hin]; [lia |].
  specialize (IH Hin). lia.
Qed.

Lemma allocate_fresh (used : list Qid) : ~ In (allocate used) used.
Proof.
  intros Hin. apply fresh_name_longer in Hin.
  unfold allocate in Hin. simpl in Hin. lia.
Qed.

Lemma assign_eq (s : Basis) (q : Qid) (b : bool) : assign s q b q = b.
Proof. unfold assign. destruct (decide (q = q)); [reflexivity | contradiction]. Qed.

Lemma assign_assign (s : Basis) (q : Qid) (b c : bool) :
  assign (assign s q b) q c = assign s q c.
Proof.
  apply FunctionalExtensionality.functional_extensionality. intros q'.
  unfold assign. destruct (decide (q' = q)); reflexivity.
Qed.

Lemma map_assign (s : Basis) (q : Qid) (b : bool) (qs : list Qid) :
  ~ In q qs -> map (assign s q b) qs = map s qs.
Proof.
  intros Hq. apply map_ext_in. intros q' Hin.
  unfold assign. destruct (decide (q' = q)) as [-> | _]; [contradiction | reflexivity].
Qed.

Lemma half_sqrt2 : (/ sqrt 2 * / sqrt 2 = / 2)%R.
Proof.
  rewrite <- Rinv_mult. f_equal. apply sqrt_sqrt. lra.
Qed.

(** The sums that arise when H follows H on the same qubit. *)
Lemma HH_sum (r : R) (z : C) (c1 c3 c4 : R) :
  (r * r = / 2)%R ->
  Cscale r (Cplus (Cscale r (Cplus Czero (Cscale c1 z)))
                  (Cscale c3 (Cscale r (Cplus Czero (Cscale c4 z)))))
  = Cscale ((c1 + c3 * c4) / 2) z.
Proof.
  intros Hr. destruct z as [x y]. unfold Cscale, Cplus, Czero. simpl.
  assert (Hx : forall t : R,
             (r * (r * (0 + c1 * t) + c3 * (r * (0 + c4 * t))))%R
             = (r * r * ((c1 + c3 * c4) * t))%R) by (intros t; ring).
  rewrite !Hx, Hr. f_equal; lra.
Qed.

Section Adapter.
Context {Oracle OracleArgs : Type}.
Variable flags : Oracle -> OracleArgs -> list bool -> bool.

Lemma adapter_net_effect (o : Oracle) (qs : list Qid) (a : OracleArgs) (phi : State) :
  exists psi,
    apply_ops flags (phase_marker_ops o qs a) (with_zero (allocate qs) phi) = Some psi
    /\ forall s, psi s = with_zero (allocate qs) (phase_flip flags o qs a phi) s.
Proof.
  eexists. split; [reflexivity |].
  intros s. pose proof (allocate_fresh qs) as Hfresh.
  set (aux := allocate qs) in *.
  unfold apply_X, apply_H, apply_marking, with_zero, phase_flip, flip.
  rewrite ?assign_assign, ?assign_eq.
  rewrite !map_assign by exact Hfresh.
  destruct (flags o a (map s qs)) eqn:Hflag;
    rewrite ?assign_assign, ?assign_eq; simpl;
    rewrite ?assign_assign, ?assign_eq; simpl;
    destruct (s aux) eqn:Haux; simpl;
    rewrite (HH_sum _ _ _ _ _ half_sqrt2);
    destruct (phi (assign s aux false)) as [x y];
    unfold Cscale, Czero; simpl; f_equal; lra.
Qed.

End Adapter.
End OracleAdapterFacts.

(** ** Frame: what the engine leaves alone *)

Section FrameFacts.
Context {Oracle OracleArgs : Type} `{!Collaborators Oracle OracleArgs}.

Local Abbreviation Circuit := (list (Op Oracle OracleArgs)).
Local Abbreviation W := (World Oracle OracleArgs).

Hypothesis contract : adapter_only_appends.

Lemma grover_iteration_frame (w : W) (o : Oracle) (a : OracleArgs) :
  exists ops : Circuit, grover_iteration w o a = circuit_append ops w.
Proof.
  unfold grover_iteration.
  destruct (contract w o a) as [ops1 ->].
  rewrite circuit_append_append.
  destruct (contract (circuit_append (ops1 ++ H_on_each (qubits (circuit_append ops1 w))) w)
                     check_if_all_zeros PyNone) as [ops2 ->].
  rewrite !circuit_append_append. eexists. reflexivity.
Qed.

Lemma grover_rounds_frame (m : nat) (w : W) (o : Oracle) (a : OracleArgs) :
  exists ops : Circuit,
    Nat.iter m (fun w' => grover_iteration w' o a) w = circuit_append ops w.
Proof.
  induction m as [| m [ops IH]]; simpl.
  - exists []. now rewrite circuit_append_nil.
  - rewrite IH.
    destruct (grover_iteration_frame (circuit_append ops w) o a) as [ops' ->].
    rewrite circuit_append_append. eexists. reflexivity.
Qed.

Lemma grover_search_frame (w : W) (o : Oracle) (a : OracleArgs) :
  exists ops : Circuit, grover_search w o a = circuit_append ops w.
Proof.
  unfold grover_search. rewrite for_range_iter.
  destruct (grover_rounds_frame
              (Z.to_nat (iterations (length (qubits (circuit_append (H_on_each (qubits w)) w)))))
              (circuit_append (H_on_each (qubits w)) w) o a) as [ops ->].
  rewrite circuit_append_append. eexists. reflexivity.
Qed.


End FrameFacts.

Lemma demo_adapter_appends :
  @adapter_appends _ _ Demo.collaborators OracleAdapter.phase_marker_ops.
Proof. intros w o a. reflexivity. Qed.

Lemma demo_adapter_only_appends : @adapter_only_appends _ _ Demo.collaborators.
Proof. intros w o a. eexists. reflexivity. Qed.

(** ** The iteration count *)

Section IterationCount.
Context {Oracle OracleArgs : Type} `{!Collaborators Oracle OracleArgs}.

(** C1, as amended: for a register of size N below 2048, [grover_search]
    runs [grover_iteration], after the initial Hadamard layer, exactly as
    many times as line 75 computes in double precision: 2^(N/2) for an even
    N, and for an odd N the double nearest to 2^(N/2), rounded to an integer.
    That count is at least one, and it is the integer nearest to 2^(N/2),
    strictly within one half of it, whenever N is even or at most 106; it is
    4 for N=4, 8 for N=6 and 1 for N=1.  From N = 2048 on, line 75 raises
    [OverflowError], after the Hadamard layer and before any round. *)
Theorem grover_search_round_count :
  (forall (w : World Oracle OracleArgs) (o : Oracle) (a : OracleArgs),
      grover_search w o a
      = Nat.iter (Z.to_nat (iterations (length (qubits w))))
                 (fun w' => grover_iteration w' o a)
                 (circuit_append (H_on_each (qubits w)) w))
  /\ (forall n : nat,
        (n < 2048)%nat ->
        round_pow2_half n = Some (iterations n)
        /\ 1 <= iterations n
        /\ iterations n
           = (if Nat.even n then 2 ^ Z.of_nat (n / 2)
              else PyNum.py_round
                     (IZR PyNum.sqrt2_significand * PyNum.pow2 (Z.of_nat (n / 2) - 52)))
        /\ (Nat.even n = true \/ (n <= 106)%nat ->
            iterations n = PyNum.nearest_pow2_half n
            /\ (Rabs (IZR (iterations n) - Rpower 2 (INR n / 2)) < 1 / 2)%R))
  /\ (forall (n : nat) (w : World Oracle OracleArgs) (o : Oracle) (a : OracleArgs),
        (2048 <= n)%nat ->
        round_pow2_half n = None
        /\ (length (qubits w) = n ->
            grover_search_raises w = true
            /\ grover_search w o a = circuit_append (H_on_each (qubits w)) w))
  /\ iterations 4 = 4 /\ iterations 6 = 8 /\ iterations 1 = 1.
Proof.
  split; [| split; [| split]].
  - intros w o a. unfold grover_search. now rewrite for_range_iter.
  - intros n Hn.
    pose proof (PyNumFacts.round_pow2_half_below n Hn) as (Hsome & Hone & Hform).
    split; [exact Hsome |]. split; [exact Hone |]. split; [exact Hform |].
    intros Hexact.
    pose proof (PyNumFacts.iterations_nearest n Hn Hexact) as Hnear.
    split; [exact Hnear |].
    rewrite Hnear, PyNumFacts.nearest_pow2_half_eq.
    pose proof (PyNumFacts.round_sqrt_pow2_near n) as [Hlo Hhi].
    apply Rabs_def1; lra.
  - intros n w o a Hn.
    pose proof (PyNumFacts.round_pow2_half_closed_eq n) as Hnone.
    unfold PyNum.round_pow2_half_closed in Hnone.
    destruct (Nat.ltb_spec n 2048) as [Hlt | _]; [lia |].
    split; [exact Hnone |]. intros Hlen.
    unfold grover_search_raises, grover_search, iterations.
    cbn [qubits circuit_append]. rewrite Hlen, Hnone.
    split; reflexivity.
  - rewrite !PyNumFacts.iterations_closed. repeat split; reflexivity.
Qed.

(** C2, as amended: on a zero-qubit register the count is round(2^0) = 1, so
    [grover_search] runs exactly one Grover iteration over the empty register
    (its Hadamard layers are empty), and [run_grover_search 0] returns the
    empty answer vector without raising. *)
Theorem zero_register_one_round :
  iterations 0 = 1
  /\ (forall (c : list (Op Oracle OracleArgs)) (r : list (list (Op Oracle OracleArgs) * nat))
             (o : Oracle) (a : OracleArgs),
        grover_search (mkWorld c [] r) o a = grover_iteration (mkWorld c [] r) o a)
  /\ (forall (o : Oracle) (a : OracleArgs), snd (run_grover_search 0 o a) = Some []).
Proof.
  assert (H0 : iterations 0 = 1) by (rewrite PyNumFacts.iterations_closed; reflexivity).
  split; [exact H0 |]. split.
  - intros c r o a. unfold grover_search. rewrite for_range_iter.
    cbn [qubits circuit_append length H_on_each map].
    rewrite H0, circuit_append_nil. reflexivity.
  - intros o a. reflexivity.
Qed.

End IterationCount.

(** C1, as stated, fails: at N=107 line 75 gives 12738103345051546, the
    double nearest to 2^(107/2), where the integer nearest to 2^(107/2) is
    12738103345051545; and at N=2048 line 75 raises, so that no count is
    computed and no round runs. *)
Lemma round_count_not_nearest :
  ~ (round_pow2_half 107 = Some (PyNum.nearest_pow2_half 107))
  /\ ~ (round_pow2_half 2048 = Some (PyNum.nearest_pow2_half 2048))
  /\ round_pow2_half 107 = Some 12738103345051546
  /\ PyNum.nearest_pow2_half 107 = 12738103345051545
  /\ round_pow2_half 2048 = None.
Proof.
  assert (H107 : round_pow2_half 107 = Some 12738103345051546)
    by (rewrite PyNumFacts.round_pow2_half_closed_eq; reflexivity).
  assert (Hnear : PyNum.nearest_pow2_half 107 = 12738103345051545)
    by (rewrite PyNumFacts.nearest_pow2_half_eq; reflexivity).
  assert (H2048 : round_pow2_half 2048 = None)
    by (rewrite PyNumFacts.round_pow2_half_closed_eq; reflexivity).
  split; [| split; [| split; [| split]]]; try assumption.
  - rewrite H107, Hnear. intros [= Heq].
  - rewrite H2048. discriminate.
Qed.

Lemma grover_search_round_count_witness :
  ((107 < 2048)%nat /\ round_pow2_half 107 = Some (iterations 107))
  /\ ((6 < 2048)%nat /\ (Nat.even 6 = true \/ (6 <= 106)%nat)
      /\ iterations 6 = PyNum.nearest_pow2_half 6)
  /\ ((2048 <= 2048)%nat /\ round_pow2_half 2048 = None).
Proof.
  destruct (@grover_search_round_count _ _ Demo.collaborators)
    as (_ & Hbelow & Hfrom & _).
  split; [| split].
  - split; [lia |]. apply (Hbelow 107%nat). lia.
  - split; [lia |]. split; [left; reflexivity |].
    destruct (Hbelow 6%nat ltac:(lia)) as (_ & _ & _ & Hnear).
    apply Hnear. left. reflexivity.
  - split; [lia |].
    apply (Hfrom 2048%nat Demo.w0 "oracle"%string None). lia.
Defined.

(** C2, as stated, fails: the loop of [grover_search] does not run zero times
    on the empty register. *)
Lemma zero_register_not_zero_rounds :
  ~ (Z.to_nat (iterations 0) = 0%nat
     /\ snd (@run_grover_search _ _ Demo.collaborators 0 "oracle"%string None) = Some []).
Proof.
  intros [Hzero _]. rewrite PyNumFacts.iterations_closed in Hzero. discriminate Hzero.
Qed.

(** ** Properties of the adapter and the engine *)

Section EngineClaims.
Context {Oracle OracleArgs : Type} `{!Collaborators Oracle OracleArgs}.

Local Abbreviation Circuit := (list (Op Oracle OracleArgs)).
Local Abbreviation W := (World Oracle OracleArgs).

(** C4: one call to [grover_iteration] appends, in this order, the adapter's
    operations for the caller's oracle over the register, a Hadamard on every
    register qubit, the adapter's operations for [check_if_all_zeros] with
    [None] as its arguments (whatever the caller's oracle and arguments are),
    and a Hadamard on every register qubit again. *)
Theorem grover_iteration_order
    (phase_ops : Oracle -> list Qid -> OracleArgs -> Circuit)
    (w : W) (o : Oracle) (a : OracleArgs) :
  adapter_appends phase_ops ->
  circuit (grover_iteration w o a)
  = circuit w
    ++ phase_ops o (qubits w) a
    ++ map cirq_H (qubits w)
    ++ phase_ops check_if_all_zeros (qubits w) PyNone
    ++ map cirq_H (qubits w).
Proof.
  intros contract. rewrite (grover_iteration_appends phase_ops contract).
  reflexivity.
Qed.

(** C5: [grover_search] first appends a Hadamard on every register qubit and
    then the rounds, [iterations] of them, each one a call of
    [grover_iteration] with the same oracle and arguments on the same circuit
    and register; the circuit ends up as the old circuit, the Hadamard layer,
    and the operations of the rounds one after the other. *)
Theorem grover_search_order
    (phase_ops : Oracle -> list Qid -> OracleArgs -> Circuit)
    (w : W) (o : Oracle) (a : OracleArgs) :
  adapter_appends phase_ops ->
  let rounds := Z.to_nat (iterations (length (qubits w))) in
  grover_search w o a
  = Nat.iter rounds (fun w' => grover_iteration w' o a)
             (circuit_append (map cirq_H (qubits w)) w)
  /\ circuit (grover_search w o a)
     = circuit w
       ++ map cirq_H (qubits w)
       ++ concat (repeat (round_ops phase_ops o (qubits w) a) rounds)
  /\ qubits (grover_search w o a) = qubits w.
Proof.
  intros contract rounds. split; [| split].
  - unfold grover_search. now rewrite for_range_iter.
  - rewrite (grover_search_appends phase_ops contract). reflexivity.
  - rewrite (grover_search_appends phase_ops contract). reflexivity.
Qed.

(** C8: [grover_iteration] and [grover_search] only append to the circuit:
    the circuit they are given is a prefix of the one they leave, the register
    is the same list afterwards, and no execution has been requested from the
    simulator. *)
Theorem engine_only_appends (w : W) (o : Oracle) (a : OracleArgs) :
  adapter_only_appends ->
  (exists ops : Circuit,
      circuit (grover_iteration w o a) = circuit w ++ ops
      /\ qubits (grover_iteration w o a) = qubits w
      /\ runs (grover_iteration w o a) = runs w)
  /\ (exists ops : Circuit,
        circuit (grover_search w o a) = circuit w ++ ops
        /\ qubits (grover_search w o a) = qubits w
        /\ runs (grover_search w o a) = runs w).
Proof.
  intros contract. split.
  - destruct (grover_iteration_frame contract w o a) as [ops ->].
    exists ops. repeat split.
  - destruct (grover_search_frame contract w o a) as [ops ->].
    exists ops. repeat split.
Qed.

End EngineClaims.

(** C3: the adapter appends operations to the circuit, whatever the circuit,
    the marking oracle, the register and the oracle's arguments are, and these
    operations, run on any register state with the auxiliary qubit at zero,
    negate the amplitude of exactly the register contents that the oracle
    flags, keep every other amplitude, and leave the auxiliary qubit at zero
    and in a product with the register.  The auxiliary qubit is none of the
    register's qubits. *)
Theorem adapter_phase_marks {Oracle OracleArgs : Type}
    (flags : Oracle -> OracleArgs -> list bool -> bool)
    (w : World Oracle OracleArgs) (o : Oracle) (a : OracleArgs)
    (phi : Quantum.State) :
  let aux := OracleAdapter.allocate (qubits w) in
  let ops := OracleAdapter.phase_marker_ops o (qubits w) a in
  OracleAdapter.run_flip_marker_as_phase_marker w o a
  = mkWorld (circuit w ++ ops) (qubits w) (runs w)
  /\ ~ In aux (qubits w)
  /\ exists psi : Quantum.State,
       Quantum.apply_ops flags ops (Quantum.with_zero aux phi) = Some psi
       /\ forall s : Quantum.Basis,
            psi s
            = if s aux then Quantum.Czero
              else if flags o a (map s (qubits w))
                   then Quantum.Cscale (-1) (phi (Quantum.assign s aux false))
                   else phi (Quantum.assign s aux false).
Proof.
  cbv zeta. split; [reflexivity |].
  split; [apply OracleAdapterFacts.allocate_fresh |].
  destruct (OracleAdapterFacts.adapter_net_effect flags o (qubits w) a phi)
    as (psi & Hrun & Hpsi).
  exists psi. split; [exact Hrun |].
  intros s. rewrite Hpsi. unfold Quantum.with_zero, Quantum.phase_flip.
  destruct (s (OracleAdapter.allocate (qubits w))); [reflexivity |].
  rewrite OracleAdapterFacts.map_assign by apply OracleAdapterFacts.allocate_fresh.
  reflexivity.
Qed.

Lemma grover_iteration_order_witness :
  circuit (grover_iteration Demo.w0 "oracle"%string (Some [true; false]))
  = circuit Demo.w0
    ++ OracleAdapter.phase_marker_ops "oracle"%string (qubits Demo.w0) (Some [true; false])
    ++ map cirq_H (qubits Demo.w0)
    ++ OracleAdapter.phase_marker_ops check_if_all_zeros (qubits Demo.w0) PyNone
    ++ map cirq_H (qubits Demo.w0).
Proof.
  apply (grover_iteration_order OracleAdapter.phase_marker_ops Demo.w0
           "oracle"%string (Some [true; false])).
  exact demo_adapter_appends.
Defined.

Lemma grover_search_order_witness :
  let rounds := Z.to_nat (iterations (length (qubits Demo.w0))) in
  grover_search Demo.w0 "oracle"%string None
  = Nat.iter rounds (fun w' => grover_iteration w' "oracle"%string None)
             (circuit_append (map cirq_H (qubits Demo.w0)) Demo.w0)
  /\ circuit (grover_search Demo.w0 "oracle"%string None)
     = circuit Demo.w0
       ++ map cirq_H (qubits Demo.w0)
       ++ concat (repeat (round_ops OracleAdapter.phase_marker_ops "oracle"%string
                                    (qubits Demo.w0) None) rounds)
  /\ qubits (grover_search Demo.w0 "oracle"%string None) = qubits Demo.w0.
Proof.
  apply (grover_search_order OracleAdapter.phase_marker_ops Demo.w0 "oracle"%string None).
  exact demo_adapter_appends.
Defined.

Lemma engine_only_appends_witness :
  (exists ops,
      circuit (grover_iteration Demo.w0 "oracle"%string None) = circuit Demo.w0 ++ ops
      /\ qubits (grover_iteration Demo.w0 "oracle"%string None) = qubits Demo.w0
      /\ runs (grover_iteration Demo.w0 "oracle"%string None) = runs Demo.w0)
  /\ (exists ops,
        circuit (grover_search Demo.w0 "oracle"%string None) = circuit Demo.w0 ++ ops
        /\ qubits (grover_search Demo.w0 "oracle"%string None) = qubits Demo.w0
        /\ runs (grover_search Demo.w0 "oracle"%string None) = runs Demo.w0).
Proof.
  apply (engine_only_appends Demo.w0 "oracle"%string None).
  exact demo_adapter_only_appends.
Defined.

(** ** Properties of the search driver *)

Section DriverClaims.
Context {Oracle OracleArgs : Type} `{!Collaborators Oracle OracleArgs}.

Local Abbreviation Circuit := (list (Op Oracle OracleArgs)).
Local Abbreviation W := (World Oracle OracleArgs).






End DriverClaims.

(** ** The driver on the concrete collaborators *)





(** ** Runs on the concrete collaborators *)

(** The round that [grover_search] runs on the empty register *)
Example zero_register_circuit :
  circuit (@grover_search _ _ Demo.collaborators (mkWorld [] [] []) "oracle"%string None)
  = [cirq_X (NamedQubit "aux"); cirq_H (NamedQubit "aux");
     oracle_call "oracle"%string [] (NamedQubit "aux") None;
     cirq_H (NamedQubit "aux"); cirq_X (NamedQubit "aux");
     cirq_X (NamedQubit "aux"); cirq_H (NamedQubit "aux");
     oracle_call "check_if_all_zeros"%string [] (NamedQubit "aux") None;
     cirq_H (NamedQubit "aux"); cirq_X (NamedQubit "aux")].
Proof.
  rewrite (grover_search_appends OracleAdapter.phase_marker_ops demo_adapter_appends).
  cbn [qubits length]. rewrite PyNumFacts.iterations_closed. reflexivity.
Qed.

Example two_qubit_answer :
  snd (@run_grover_search _ _ Demo.collaborators 2 "oracle"%string None) = Some [1; 0].
Proof. reflexivity. Qed.

Example three_qubit_answer :
  snd (@run_grover_search _ _ Demo.collaborators 3 "oracle"%string None) = Some [1; 0; 0].
Proof. reflexivity. Qed.

Example iterations_small :
  map iterations [0; 1; 2; 3; 4; 5; 6; 7; 8]%nat = [1; 1; 2; 3; 4; 6; 8; 11; 16].
Proof. cbn [map]. rewrite !PyNumFacts.iterations_closed. reflexivity. Qed.

(** ** Further properties of the iteration count *)

Module IterationCountFacts.
Import PyNum PyNumFacts.

(** X1: for a register of even size 2m below 2048, line 75 gives exactly
    2^m. *)
Theorem iterations_even (m : nat) :
  (2 * m < 2048)%nat -> round_pow2_half (2 * m) = Some (2 ^ Z.of_nat m).
Proof.
  intros Hm. rewrite round_pow2_half_closed_eq. unfold round_pow2_half_closed.
  destruct (Nat.ltb_spec (2 * m) 2048) as [_ | Hge]; [| lia].
  cbv zeta.
  replace (Nat.even (2 * m)) with true by (symmetry; apply Nat.even_spec; now exists m).
  replace (2 * m / 2)%nat with m by (apply (Nat.div_unique _ 2 m 0); lia).
  reflexivity.
Qed.




Lemma iterations_step (n : nat) : (S n < 2048)%nat -> iterations n <= iterations (S n).
Proof.
  intros Hn.
  assert (Hcheck : forallb (fun n => match round_pow2_half_closed n,
                                           round_pow2_half_closed (S n) with
                                     | Some j, Some k => j <=? k
                                     | _, _ => false
                                     end) (seq 0 2047) = true)
    by (vm_compute; reflexivity).
  pose proof (forallb_seq _ _ Hcheck n ltac:(lia)) as Hle. cbv beta in Hle.
  rewrite !iterations_closed.
  destruct (round_pow2_half_closed n); [| discriminate].
  destruct (round_pow2_half_closed (S n)); [| discriminate].
  now apply Z.leb_le.
Qed.

(** X3: among the sizes below 2048, for which line 75 returns, a larger
    register never gets fewer rounds. *)
Theorem iterations_monotone (n d : nat) :
  (n + d < 2048)%nat -> iterations n <= iterations (n + d).
Proof.
  induction d as [| d IH]; intros Hnd.
  - rewrite Nat.add_0_r. lia.
  - rewrite Nat.add_succ_r.
    pose proof (iterations_step (n + d) ltac:(lia)). specialize (IH ltac:(lia)). lia.
Qed.

(** X4: for a size N below 2048 the count lies between 2^floor(N/2) and
    2^ceil(N/2). *)
Theorem iterations_between_powers (n : nat) :
  (n < 2048)%nat ->
  2 ^ Z.of_nat (n / 2) <= iterations n <= 2 ^ Z.of_nat ((n + 1) / 2).
Proof.
  intros Hn.
  assert (Hcheck : forallb (fun n => match round_pow2_half_closed n with
                                     | Some k => (2 ^ Z.of_nat (n / 2) <=? k)
                                                 && (k <=? 2 ^ Z.of_nat ((n + 1) / 2))
                                     | None => false
                                     end) (seq 0 2048) = true)
    by (vm_compute; reflexivity).
  pose proof (forallb_seq _ _ Hcheck n Hn) as Hboth. cbv beta in Hboth.
  rewrite iterations_closed.
  destruct (round_pow2_half_closed n); [| discriminate].
  apply andb_prop in Hboth as [Hlo Hhi].
  split; [now apply Z.leb_le in Hlo | now apply Z.leb_le in Hhi].
Qed.

End IterationCountFacts.

Lemma iterations_even_witness :
  (2 * 5 < 2048)%nat /\ round_pow2_half (2 * 5) = Some (2 ^ Z.of_nat 5).
Proof.
  split; [lia |]. apply (IterationCountFacts.iterations_even 5). lia.
Defined.


Lemma iterations_monotone_witness :
  (7 + 100 < 2048)%nat /\ iterations 7 <= iterations (7 + 100).
Proof.
  split; [lia |]. apply (IterationCountFacts.iterations_monotone 7 100). lia.
Defined.

Lemma iterations_between_powers_witness :
  (107 < 2048)%nat
  /\ 2 ^ Z.of_nat (107 / 2) <= iterations 107 <= 2 ^ Z.of_nat ((107 + 1) / 2).
Proof.
  split; [lia |]. apply (IterationCountFacts.iterations_between_powers 107). lia.
Defined.

(** ** Further properties of the engine and the driver *)

Section MoreFacts.
Context {Oracle OracleArgs : Type} `{!Collaborators Oracle OracleArgs}.

Local Abbreviation Circuit := (list (Op Oracle OracleArgs)).
Local Abbreviation W := (World Oracle OracleArgs).



(** X6: what [grover_search] appends does not depend on what the circuit
    already holds nor on earlier executions: it is what it appends to an
    empty circuit over the same register. *)
Theorem grover_search_suffix
    (phase_ops : Oracle -> list Qid -> OracleArgs -> Circuit)
    (w : W) (o : Oracle) (a : OracleArgs) :
  adapter_appends phase_ops ->
  circuit (grover_search w o a)
  = circuit w ++ circuit (grover_search (mkWorld [] (qubits w) []) o a)
  /\ circuit (grover_iteration w o a)
     = circuit w ++ circuit (grover_iteration (mkWorld [] (qubits w) []) o a).
Proof.
  intros contract.
  rewrite !(grover_search_appends phase_ops contract).
  rewrite !(grover_iteration_appends phase_ops contract).
  split; reflexivity.
Qed.

Lemma append_inj_l (p s1 s2 : string) : String.append p s1 = String.append p s2 -> s1 = s2.
Proof.
  induction p as [| c p IH]; simpl; intros Heq; [exact Heq |].
  apply IH. congruence.
Qed.

Lemma NamedQubit_range_NoDup (n : nat) (prefix : string) :
  List.NoDup (map qubit_name (NamedQubit_range n prefix)).
Proof.
  unfold NamedQubit_range. rewrite List.map_map. cbn [qubit_name].
  apply Finite.Injective_map_NoDup; [| apply List.seq_NoDup].
  intros i j Heq. apply str_of_nat_inj. exact (append_inj_l _ _ _ Heq).
Qed.

(** X7: the qubits that [NamedQubit.range] allocates are pairwise different,
    whatever the prefix, and no two of the measurements appended for them
    share a key. *)
Theorem register_names_distinct (n : nat) (prefix : string) :
  List.NoDup (NamedQubit_range n prefix)
  /\ forall (i j : nat) (q1 q2 : Qid) (key : string),
       measure_each (Oracle := Oracle) (OracleArgs := OracleArgs)
                    (NamedQubit_range n prefix) !! i = Some (cirq_measure q1 key) ->
       measure_each (Oracle := Oracle) (OracleArgs := OracleArgs)
                    (NamedQubit_range n prefix) !! j = Some (cirq_measure q2 key) ->
       i = j.
Proof.
  split.
  - apply (List.NoDup_map_inv qubit_name), NamedQubit_range_NoDup.
  - intros i j q1 q2 key Hi Hj.
    unfold measure_each in Hi, Hj. rewrite lookup_map in Hi, Hj.
    destruct (NamedQubit_range n prefix !! i) as [qi |] eqn:Hqi; [| discriminate].
    destruct (NamedQubit_range n prefix !! j) as [qj |] eqn:Hqj; [| discriminate].
    cbn in Hi, Hj.
    apply NamedQubit_range_lookup_inv in Hqi as [_ ->].
    apply NamedQubit_range_lookup_inv in Hqj as [_ ->].
    cbn [qubit_name] in Hi, Hj.
    assert (Hkey : String.append prefix (str_of_nat i) = String.append prefix (str_of_nat j))
      by congruence.
    apply str_of_nat_inj. exact (append_inj_l _ _ _ Hkey).
Qed.



End MoreFacts.


Lemma grover_search_suffix_witness :
  circuit (@grover_search _ _ Demo.collaborators Demo.w0 "oracle"%string None)
  = circuit Demo.w0
    ++ circuit (@grover_search _ _ Demo.collaborators
                  (mkWorld [] (qubits Demo.w0) []) "oracle"%string None)
  /\ circuit (@grover_iteration _ _ Demo.collaborators Demo.w0 "oracle"%string None)
     = circuit Demo.w0
       ++ circuit (@grover_iteration _ _ Demo.collaborators
                     (mkWorld [] (qubits Demo.w0) []) "oracle"%string None).
Proof.
  apply (@grover_search_suffix _ _ Demo.collaborators OracleAdapter.phase_marker_ops
           Demo.w0 "oracle"%string None).
  exact demo_adapter_appends.
Defined.

